(** * Asynchronous timing generation: [cardio_audio_sleep/utils/async_timings.py]

    A shallow embedding of [generate_async_timings] and the properties of
    its four stages (interval extraction, outlier filtering, validity gate,
    sequence synthesis).

    Conventions of the embedding:
    - timestamps, delays and thresholds are rationals ([Q]) with exact
      arithmetic; floating-point rounding, NaN and infinities are not
      modelled;
    - numpy arrays are lists; indexing with an integer (or an array of
      integers) follows numpy: a negative index counts from the end and an
      index out of bounds raises [IndexError]; an update in place is
      stdpp's [<[i:=x]>] guarded by the same bounds check;
    - exceptions are an [outcome]; the ambient pseudo-random generator and
      the logger are the two fields of an explicit [world] threaded through
      the function by a small state-and-error monad;
    - the arguments are already typed, so the three [_check_type] calls
      (lines 42-46) succeed and are not modelled. *)

From Stdlib Require Import QArith ZArith Lia Bool.
From stdpp Require Import base list.

(** ** Numbers *)

(** [x < y] on rationals as a boolean, as Python evaluates it. *)
Definition Qltb (x y : Q) : bool := negb (Qle_bool y x).

(** ** Exceptions, the world, and the monad *)

Inductive exn : Type :=
| ValueError
| IndexError.

Inductive outcome (A : Type) : Type :=
| Return (a : A)
| Raise (e : exn).
Arguments Return {A} a.
Arguments Raise {A} e.

(** One record of [logger.warning]: the three values interpolated into the
    message (lines 65-67): [valids.size], [n - 1] and [valid_perc]. *)
Record warning : Type := Warning {
  w_size : nat;
  w_total : Z;
  w_threshold : Q
}.

(** The process-wide state the function touches: the state of the global
    generator of [np.random] (represented by the stream of raw outputs it
    would produce next), and the records the logger has received so far
    (oldest first). *)
Record world : Type := World {
  rng : nat -> nat;
  log : list warning
}.

Definition M (A : Type) : Type := world -> outcome A * world.

Definition ret {A} (a : A) : M A := fun w => (Return a, w).

Definition raise {A} (e : exn) : M A := fun w => (Raise e, w).

Definition bind {A B} (m : M A) (f : A -> M B) : M B :=
  fun w =>
    match m w with
    | (Return a, w') => f a w'
    | (Raise e, w') => (Raise e, w')
    end.

Definition lift {A} (o : outcome A) : M A := fun w => (o, w).

Definition obind {A B} (o : outcome A) (f : A -> outcome B) : outcome B :=
  match o with
  | Return a => f a
  | Raise e => Raise e
  end.

Declare Scope py_scope.
Delimit Scope py_scope with py.
Notation "x <- m ;; k" := (bind m (fun x => k))
  (at level 100, m at next level, right associativity) : py_scope.
Notation "m ;; k" := (bind m (fun _ => k))
  (at level 100, right associativity) : py_scope.

(** ** numpy and logging primitives *)

(** [np.diff(a)] on a one-dimensional array: [a[i+1] - a[i]]. *)
Fixpoint np_diff (a : list Q) : list Q :=
  match a with
  | x :: (y :: _) as tl => (y - x)%Q :: np_diff tl
  | _ => []
  end.

(** [~i] on a non-negative integer: bitwise NOT, that is [-i - 1]. *)
Definition bitwise_not (i : nat) : Z := (- Z.of_nat i - 1)%Z.

(** [a[j]] for an integer [j]: a negative [j] counts from the end;
    [IndexError] unless [-len(a) <= j < len(a)]. *)
Definition getitem (a : list Q) (j : Z) : outcome Q :=
  let len := Z.of_nat (length a) in
  let j' := if (j <? 0)%Z then (j + len)%Z else j in
  if (j' <? 0)%Z || (len <=? j')%Z then Raise IndexError
  else match a !! Z.to_nat j' with
       | Some x => Return x
       | None => Raise IndexError
       end.

(** [a[idx]] for an array [idx] of integers: the elements of [a] at those
    positions, in the order of [idx]; [IndexError] if one is out of
    bounds. *)
Fixpoint int_index (a : list Q) (idx : list Z) : outcome (list Q) :=
  match idx with
  | [] => Return []
  | j :: rest =>
      obind (getitem a j) (fun x =>
      obind (int_index a rest) (fun xs => Return (x :: xs)))
  end.

(** The elements of [a] at which [mask] is [true], in order. *)
Fixpoint compress (mask : list bool) (a : list Q) : list Q :=
  match mask, a with
  | b :: mask', x :: a' =>
      if b then x :: compress mask' a' else compress mask' a'
  | _, _ => []
  end.

(** [np.where(mask)[0]]: the positions at which [mask] is [true], in
    increasing order, counted from [i]. *)
Fixpoint np_where_from (i : nat) (mask : list bool) : list nat :=
  match mask with
  | [] => []
  | b :: mask' =>
      if b then i :: np_where_from (S i) mask' else np_where_from (S i) mask'
  end.

Definition np_where (mask : list bool) : list nat := np_where_from 0 mask.

(** [np.zeros((n,))]. *)
Definition np_zeros (n : nat) : list Q := replicate n 0%Q.

(** [a[-1]]: the last element; [IndexError] on an empty array. *)
Definition getitem_last (a : list Q) : outcome Q :=
  match last a with
  | Some x => Return x
  | None => Raise IndexError
  end.

(** [a[i] = x] for [i >= 0]: [IndexError] when out of bounds. *)
Definition setitem (a : list Q) (i : nat) (x : Q) : outcome (list Q) :=
  if i <? length a then Return (<[i:=x]> a) else Raise IndexError.

(** The sample [np.random.choice] returns when the positions it picked are
    [r 0], [r 1], ...: position [k] (reduced to an index into the
    population [a]) selects the element taken, with replacement. *)
Definition draws (r : nat -> nat) (a : list Q) (m : nat) : list Q :=
  map (fun k => nth (r k mod length a) a 0%Q) (seq 0 m).

(** [logger.warning(...)]: appends one record. *)
Definition logger_warning (r : warning) : M unit :=
  fun w => (Return tt, {| rng := rng w; log := log w ++ [r] |}).

(** ** The function *)

(** Lines 72-73:
    [for k, delay in enumerate(delays): timings[k + 1] = timings[-1] + delay],
    entered at index [k]. *)
Fixpoint accumulate (k : nat) (delays : list Q) (timings : list Q)
  : outcome (list Q) :=
  match delays with
  | [] => Return timings
  | delay :: rest =>
      obind (getitem_last timings) (fun x =>
      obind (setitem timings (S k) (x + delay)%Q) (fun timings' =>
      accumulate (S k) rest timings'))
  end.

(** Line 60: [100 * valids.size / (n - 1)]. *)
Definition ratio (size : nat) (n : nat) : Q :=
  (inject_Z (100 * Z.of_nat size) / inject_Z (Z.of_nat n - 1))%Q.

(** Line 60: the verdict computed for the input [sequence_timings], the
    array [valids] of line 57 and the threshold. *)
Definition verdict (sequence_timings valids : list Q) (valid_perc : Q) : bool :=
  Qltb (ratio (length valids) (length sequence_timings)) valid_perc.

Section Generate.

(** [mne.preprocessing.bads._find_outliers(X, threshold, max_iter)] is
    not part of this repository.  It returns the array of the indices of
    the features it flags ([np.where(mask)[0]]), and is taken as a
    parameter: a function from the intervals, the threshold and the
    iteration cap to those indices. *)
Variable _find_outliers : list Q -> Q -> nat -> list nat.

(** [randint(0, high, size)] on the global generator of numpy: how the
    state of the generator is turned into [size] positions below [high],
    and which state is left, is numpy's business and is taken as a
    parameter.  From a state it gives the positions (position [k] is read
    modulo [high]) and the state afterwards. *)
Variable randint : (nat -> nat) -> nat -> nat -> (nat -> nat) * (nat -> nat).

Local Open Scope py_scope.

(** [np.random.choice(a, size=size, replace=True)]: positions are picked
    by [randint(0, len(a), size)] and the elements there are returned.  A
    negative [size], or a non-empty sample from an empty population, is a
    [ValueError]. *)
Definition np_random_choice (a : list Q) (size : Z) : M (list Q) :=
  fun w =>
    if (size <? 0)%Z then (Raise ValueError, w)
    else if (length a =? 0) && (0 <? size)%Z then (Raise ValueError, w)
    else
      let m := Z.to_nat size in
      let picked := randint (rng w) (length a) m in
      (Return (draws (fst picked) a m),
       {| rng := snd picked; log := log w |}).

Definition generate_async_timings
    (sequence_timings : list Q) (zscore : Q) (valid_perc : Q)
  : M (option (list Q) * bool) :=
  if Qltb valid_perc 0 || Qltb 100 valid_perc then raise ValueError
  else
    let n := length sequence_timings in
    let diff := np_diff sequence_timings in
    let outliers := _find_outliers diff zscore 3 in
    valids <- lift (int_index diff (map bitwise_not outliers)) ;;
    if length valids =? 0 then ret (None, false)
    else
      let valid := Qltb (ratio (length valids) n) valid_perc in
      (if negb valid
       then logger_warning
              (Warning (length valids) (Z.of_nat n - 1) valid_perc)
       else ret tt) ;;
      delays <- np_random_choice valids (Z.of_nat n - 1) ;;
      timings <- lift (accumulate 0 delays (np_zeros n)) ;;
      ret (Some timings, valid).

(** Lines 54-57 on their own: the array [valids = diff[~outliers]] of an
    input, or the exception line 57 raises. *)
Definition valids_of (sequence_timings : list Q) (zscore : Q)
  : outcome (list Q) :=
  let diff := np_diff sequence_timings in
  int_index diff (map bitwise_not (_find_outliers diff zscore 3)).

(** The cleaned interval subset as the specification words it: the
    intervals the outlier filter did not flag, in order.  It is what the
    claims are measured against, and is not what line 57 computes (see
    [valids_of]). *)
Definition spec_cleaned (sequence_timings : list Q) (zscore : Q) : list Q :=
  let diff := np_diff sequence_timings in
  let outliers := _find_outliers diff zscore 3 in
  compress (map (fun i => negb (existsb (Nat.eqb i) outliers))
              (seq 0 (length diff)))
           diff.

End Generate.

(** ** What a caller can observe of a result besides the drawn values *)

(** A result with the timing sequence replaced by its length. *)
Definition shape (r : outcome (option (list Q) * bool))
  : outcome (option nat * bool) :=
  match r with
  | Return (Some timings, valid) => Return (Some (length timings), valid)
  | Return (None, valid) => Return (None, valid)
  | Raise e => Raise e
  end.

(** The records a run added to the log of the world [w] it started in. *)
Definition emitted (w w' : world) : list warning :=
  drop (length (log w)) (log w').

(** [t] is non-decreasing: every element is at most its successor. *)
Fixpoint is_nondecreasing (t : list Q) : bool :=
  match t with
  | x :: ((y :: _) as tl) => Qle_bool x y && is_nondecreasing tl
  | _ => true
  end.

(** [x] has the value of some element of [l]. *)
Definition memQ (x : Q) (l : list Q) : bool := existsb (Qeq_bool x) l.

(** The running sum of [delays] seeded at [acc]: [acc], [acc + d0],
    [acc + d0 + d1], ... *)
Fixpoint running_sum (acc : Q) (delays : list Q) : list Q :=
  match delays with
  | [] => [acc]
  | d :: rest => acc :: running_sum (acc + d)%Q rest
  end.

(** ** The outlier filter and the generator, for concrete runs *)

(** The sum of a list of rationals. *)
Definition Qsum (l : list Q) : Q := fold_right Qplus 0%Q l.

(** Modelled from the spec: the mean of the intervals of a round. *)
Definition mean (l : list Q) : Q :=
  (Qsum l / inject_Z (Z.of_nat (length l)))%Q.

(** Modelled from the spec: the square of the (population) standard
    deviation of the intervals of a round. *)
Definition variance (l : list Q) : Q :=
  let m := mean l in mean (map (fun x => ((x - m) * (x - m))%Q) l).

(** Modelled from the spec: the test of section 4.2,
    [|x - m| / sqrt v > threshold] for a variance [v], decided without the
    square root; [false] when [v] is zero (no z-score is defined). *)
Definition zscore_exceeds (threshold m v x : Q) : bool :=
  Qltb 0 v &&
  (Qltb threshold 0 || Qltb (threshold * threshold * v) ((x - m) * (x - m))).

(** Modelled from the spec: the rounds of section 4.2.  At most [max_iter]
    rounds of flagging over the intervals [X], starting from [mask]; the
    statistics of a round are those of the intervals not flagged so far,
    and the rounds stop after the first one that flags nothing new. *)
Fixpoint find_outliers_rounds (max_iter : nat) (X : list Q) (threshold : Q)
    (mask : list bool) : list bool :=
  match max_iter with
  | O => mask
  | S rounds =>
      let kept := compress (map negb mask) X in
      let m := mean kept in
      let v := variance kept in
      let local_bad :=
        zip_with (fun x flagged => negb flagged && zscore_exceeds threshold m v x)
                 X mask in
      let mask' := zip_with orb mask local_bad in
      if existsb id local_bad
      then find_outliers_rounds rounds X threshold mask'
      else mask'
  end.

(** Modelled from the spec: the iterative z-score outlier filter
    [_find_outliers] of the external package [mne], which is not part of
    this repository.  Section 4.2: start with nothing flagged; in each
    round take the mean and the (population) standard deviation of the
    intervals not yet flagged and flag those whose absolute z-score
    exceeds the threshold; stop when a round flags nothing new or after
    [max_iter] rounds; a zero standard deviation flags nothing.  The
    flagged intervals are handed back the way [mne] hands them back, as
    the array of their indices. *)
Definition find_outliers_spec (X : list Q) (threshold : Q) (max_iter : nat)
  : list nat :=
  np_where
    (find_outliers_rounds max_iter X threshold (replicate (length X) false)).

(** A generator for concrete runs: its state is the stream of the
    positions it will pick, and it spends one of them per sample. *)
Definition randint_stream (g : nat -> nat) (high size : nat)
  : (nat -> nat) * (nat -> nat) :=
  (g, fun k => g (size + k)).

(** The state whose next positions are the elements of [l], then zeros. *)
Definition rng_of (l : list nat) : nat -> nat := fun k => nth k l 0%nat.

(** ** Concrete inputs used below *)

(** Three beats, intervals 1 and 2. *)
Definition beats3 : list Q := [0; 1; 3]%Q.

(** Eleven beats: six intervals of 1 followed by four intervals of 5. *)
Definition beats11 : list Q := [0; 1; 2; 3; 4; 5; 6; 11; 16; 21; 26]%Q.

(** Eleven beats: an interval of 50, eight intervals of 1, an interval of
    2. *)
Definition beats_jump : list Q :=
  [0; 50; 51; 52; 53; 54; 55; 56; 57; 58; 60]%Q.

(** * Properties *)

(** ** Arithmetic and list facts *)

Lemma Qplus_0_l_eq (d : Q) : (0 + d)%Q = d.
Proof.
  destruct d as [num den]. unfold Qplus. simpl.
  now rewrite Z.mul_1_r.
Qed.

Lemma Qltb_true_iff (x y : Q) : Qltb x y = true <-> (x < y)%Q.
Proof.
  unfold Qltb. rewrite negb_true_iff. split.
  - intros H. apply Qnot_le_lt. intros Hle.
    apply Qle_bool_iff in Hle. congruence.
  - intros H. destruct (Qle_bool y x) eqn:E; [|reflexivity].
    apply Qle_bool_iff in E. exfalso. exact (Qlt_not_le _ _ H E).
Qed.

Lemma Qltb_false_iff (x y : Q) : Qltb x y = false <-> (y <= x)%Q.
Proof.
  unfold Qltb. rewrite negb_false_iff. apply Qle_bool_iff.
Qed.

Lemma in_range_guard (valid_perc : Q) :
  (0 <= valid_perc)%Q -> (valid_perc <= 100)%Q ->
  Qltb valid_perc 0 || Qltb 100 valid_perc = false.
Proof.
  intros H0 H100. apply orb_false_iff. split; now apply Qltb_false_iff.
Qed.

Lemma length_np_diff (a : list Q) : length (np_diff a) = length a - 1.
Proof.
  induction a as [|x a IH]; [reflexivity|].
  destruct a as [|y a]; [reflexivity|].
  change (np_diff (x :: y :: a)) with ((y - x)%Q :: np_diff (y :: a)).
  simpl length in *. lia.
Qed.

Lemma last_replicate_S {A} (m : nat) (x : A) :
  last (replicate (S m) x) = Some x.
Proof.
  induction m as [|m IH]; [reflexivity|].
  change (replicate (S (S m)) x) with (x :: replicate (S m) x).
  now rewrite last_cons, IH.
Qed.

Lemma length_draws (r : nat -> nat) (a : list Q) (m : nat) :
  length (draws r a m) = m.
Proof. unfold draws. now rewrite List.length_map, List.length_seq. Qed.

Lemma draws_in (r : nat -> nat) (a : list Q) (m : nat) (d : Q) :
  a <> [] -> In d (draws r a m) -> In d a.
Proof.
  intros Ha Hd. unfold draws in Hd. apply in_map_iff in Hd.
  destruct Hd as (k & <- & _). apply nth_In.
  apply Nat.mod_upper_bound. destruct a; [congruence | discriminate].
Qed.

(** ** Indexing with integers *)

Lemma getitem_in (a : list Q) (j : Z) (x : Q) :
  getitem a j = Return x -> In x a.
Proof.
  unfold getitem. cbv zeta.
  destruct (_ || _); [discriminate|].
  destruct (a !! _) as [y|] eqn:E; [|discriminate].
  intros [= <-]. apply list_elem_of_In. now apply list_elem_of_lookup_2 in E.
Qed.

Lemma getitem_raises_index (a : list Q) (j : Z) (e : exn) :
  getitem a j = Raise e -> e = IndexError.
Proof.
  unfold getitem. cbv zeta.
  destruct (_ || _); [now intros [= <-]|].
  destruct (a !! _); [discriminate | now intros [= <-]].
Qed.

(** [a[~i]] is the element at the mirrored position [len(a) - 1 - i]. *)
Lemma getitem_not_lt (a : list Q) (i : nat) :
  i < length a ->
  exists x, a !! (length a - 1 - i) = Some x
            /\ getitem a (bitwise_not i) = Return x.
Proof.
  intros Hi.
  destruct (lookup_lt_is_Some_2 a (length a - 1 - i)) as [x Hx]; [lia|].
  exists x. split; [exact Hx|].
  unfold getitem, bitwise_not. cbv zeta.
  replace (- Z.of_nat i - 1 <? 0)%Z with true by (symmetry; apply Z.ltb_lt; lia).
  replace ((- Z.of_nat i - 1 + Z.of_nat (length a) <? 0)%Z
           || (Z.of_nat (length a) <=? - Z.of_nat i - 1 + Z.of_nat (length a))%Z)
    with false.
  2:{ symmetry. apply orb_false_iff. split;
        [apply Z.ltb_ge | apply Z.leb_gt]; lia. }
  replace (Z.to_nat (- Z.of_nat i - 1 + Z.of_nat (length a)))
    with (length a - 1 - i) by lia.
  now rewrite Hx.
Qed.

Lemma getitem_not_ge (a : list Q) (i : nat) :
  length a <= i -> getitem a (bitwise_not i) = Raise IndexError.
Proof.
  intros Hi. unfold getitem, bitwise_not. cbv zeta.
  replace (- Z.of_nat i - 1 <? 0)%Z with true by (symmetry; apply Z.ltb_lt; lia).
  replace (- Z.of_nat i - 1 + Z.of_nat (length a) <? 0)%Z with true
    by (symmetry; apply Z.ltb_lt; lia).
  reflexivity.
Qed.

Lemma int_index_cons (a : list Q) (j : Z) (rest : list Z) :
  int_index a (j :: rest)
  = obind (getitem a j) (fun x =>
    obind (int_index a rest) (fun xs => Return (x :: xs))).
Proof. reflexivity. Qed.

Lemma int_index_in (a : list Q) (idx : list Z) (vs : list Q) (x : Q) :
  int_index a idx = Return vs -> In x vs -> In x a.
Proof.
  revert vs. induction idx as [|j rest IH]; intros vs.
  - intros [= <-] [].
  - rewrite int_index_cons.
    destruct (getitem a j) as [y|] eqn:Ej; [|discriminate]. simpl obind.
    destruct (int_index a rest) as [ys|] eqn:Er; [|discriminate]. simpl obind.
    intros [= <-] [<-|Hin].
    + now apply getitem_in in Ej.
    + now apply (IH ys).
Qed.

Lemma int_index_length (a : list Q) (idx : list Z) (vs : list Q) :
  int_index a idx = Return vs -> length vs = length idx.
Proof.
  revert vs. induction idx as [|j rest IH]; intros vs.
  - now intros [= <-].
  - rewrite int_index_cons.
    destruct (getitem a j) as [y|]; [|discriminate]. simpl obind.
    destruct (int_index a rest) as [ys|]; [|discriminate]. simpl obind.
    intros [= <-]. simpl. now rewrite (IH ys).
Qed.

Lemma int_index_raises_index (a : list Q) (idx : list Z) (e : exn) :
  int_index a idx = Raise e -> e = IndexError.
Proof.
  induction idx as [|j rest IH]; [discriminate|].
  rewrite int_index_cons.
  destruct (getitem a j) as [y|e'] eqn:Ej; simpl obind.
  - destruct (int_index a rest) as [ys|e'']; simpl obind; [discriminate|].
    intros [= <-]. now apply IH.
  - intros [= <-]. now apply getitem_raises_index in Ej.
Qed.

(** Indexing with the complemented indices never raises when every index
    is within bounds. *)
Lemma int_index_not_in_bounds (a : list Q) (l : list nat) :
  Forall (fun i => i < length a) l ->
  exists vs, int_index a (map bitwise_not l) = Return vs.
Proof.
  induction 1 as [|i l Hi _ [vs IH]]; [now exists []|].
  destruct (getitem_not_lt a i Hi) as (x & _ & Hx).
  exists (x :: vs). simpl map. now rewrite int_index_cons, Hx, IH.
Qed.

(** What indexing with the complemented indices selects: for each index,
    the element at the mirrored position. *)
Lemma int_index_not_mirror (a : list Q) (l : list nat) (vs : list Q) (x : Q) :
  int_index a (map bitwise_not l) = Return vs -> In x vs ->
  exists i, In i l /\ i < length a /\ a !! (length a - 1 - i) = Some x.
Proof.
  revert vs. induction l as [|i l IH]; intros vs.
  - intros [= <-] [].
  - simpl map. rewrite int_index_cons.
    destruct (le_lt_dec (length a) i) as [Hge|Hlt].
    { now rewrite (getitem_not_ge a i Hge). }
    destruct (getitem_not_lt a i Hlt) as (y & Hy & Hg). rewrite Hg.
    simpl obind.
    destruct (int_index a (map bitwise_not l)) as [ys|]; [|discriminate].
    simpl obind. intros [= <-] [<-|Hin].
    + exists i. repeat split; [now left | assumption..].
    + destruct (IH ys eq_refl Hin) as (i' & Hi' & Hb & Hl).
      exists i'. repeat split; [now right | assumption..].
Qed.

(** ** The accumulation loop reads a cell that is still zero *)

Lemma accumulate_cons (k : nat) (d : Q) (rest timings : list Q) :
  accumulate k (d :: rest) timings
  = obind (getitem_last timings) (fun x =>
    obind (setitem timings (S k) (x + d)%Q) (fun timings' =>
    accumulate (S k) rest timings')).
Proof. reflexivity. Qed.

(** Entered at index [k] with the cells beyond [k] still zero, the loop
    copies each delay into its cell: the cell it reads, the last one, is
    zero until the very last write, which is the one that overwrites it. *)
Lemma accumulate_zeros (delays pre : list Q) (k : nat) :
  length pre = S k ->
  accumulate k delays (pre ++ replicate (length delays) 0%Q)
  = Return (pre ++ delays).
Proof.
  revert pre k. induction delays as [|d rest IH]; intros pre k Hpre.
  - simpl. now rewrite app_nil_r.
  - rewrite accumulate_cons.
    set (t := pre ++ replicate (length (d :: rest)) 0%Q).
    assert (Hlast : last t = Some 0%Q).
    { subst t. simpl. rewrite last_app_cons.
      exact (last_replicate_S (length rest) 0%Q). }
    assert (Hlen : length t = S (S k) + length rest).
    { subst t. rewrite length_app, length_replicate. simpl. lia. }
    unfold getitem_last. rewrite Hlast. simpl obind.
    unfold setitem.
    replace (S k <? length t) with true
      by (symmetry; apply Nat.ltb_lt; lia).
    simpl obind. subst t.
    rewrite insert_app_r_alt by lia.
    replace (S k - length pre) with 0 by lia.
    replace (pre ++ <[0:=(0 + d)%Q]> (replicate (length (d :: rest)) 0%Q))
      with ((pre ++ [d]) ++ replicate (length rest) 0%Q)
      by (rewrite Qplus_0_l_eq, <- app_assoc; reflexivity).
    rewrite IH by (rewrite length_app; simpl; lia).
    now rewrite <- app_assoc.
Qed.

Lemma accumulate_from_zeros (delays : list Q) :
  accumulate 0 delays (np_zeros (S (length delays))) = Return (0%Q :: delays).
Proof.
  unfold np_zeros.
  change (replicate (S (length delays)) 0%Q)
    with ([0%Q] ++ replicate (length delays) 0%Q).
  now rewrite accumulate_zeros.
Qed.


(** ** The four ways a call ends *)

Section Paths.

Variable find : list Q -> Q -> nat -> list nat.
Variable randint : (nat -> nat) -> nat -> nat -> (nat -> nat) * (nat -> nat).

Implicit Types (ts vs : list Q) (z p : Q) (w : world).

Lemma generate_unfold ts z p w :
  generate_async_timings find randint ts z p w
  = if Qltb p 0 || Qltb 100 p then (Raise ValueError, w)
    else match valids_of find ts z with
         | Raise e => (Raise e, w)
         | Return vs =>
             if length vs =? 0 then (Return (None, false), w)
             else
               bind (if negb (verdict ts vs p)
                     then logger_warning
                            (Warning (length vs) (Z.of_nat (length ts) - 1) p)
                     else ret tt)
                 (fun _ =>
                  bind (np_random_choice randint vs (Z.of_nat (length ts) - 1))
                    (fun delays =>
                     bind (lift (accumulate 0 delays (np_zeros (length ts))))
                       (fun timings => ret (Some timings, verdict ts vs p))))
                 w
         end.
Proof.
  unfold generate_async_timings, valids_of.
  destruct (Qltb p 0 || Qltb 100 p); [reflexivity|].
  cbv zeta. unfold bind at 1, lift at 1.
  destruct (int_index _ _) as [vs|e]; [|reflexivity].
  destruct (length vs =? 0); reflexivity.
Qed.

Lemma valids_raises_index ts z e :
  valids_of find ts z = Raise e -> e = IndexError.
Proof. unfold valids_of. cbv zeta. apply int_index_raises_index. Qed.

Lemma valids_size ts z vs :
  valids_of find ts z = Return vs ->
  length vs = length (find (np_diff ts) z 3).
Proof.
  unfold valids_of. cbv zeta. intros H.
  apply int_index_length in H. now rewrite List.length_map in H.
Qed.

Lemma valids_in_diff ts z vs x :
  valids_of find ts z = Return vs -> In x vs -> In x (np_diff ts).
Proof. unfold valids_of. cbv zeta. apply int_index_in. Qed.

Lemma valids_nonempty_length ts z vs :
  valids_of find ts z = Return vs -> vs <> [] -> 2 <= length ts.
Proof.
  intros Hv Hne. destruct vs as [|x vs]; [congruence|].
  pose proof (valids_in_diff _ _ _ x Hv (or_introl eq_refl)) as Hin.
  pose proof (length_np_diff ts) as Hl.
  destruct (np_diff ts); [destruct Hin|]. simpl in Hl. lia.
Qed.

Lemma valids_nothing_flagged ts z :
  find (np_diff ts) z 3 = [] -> valids_of find ts z = Return [].
Proof. intros H. unfold valids_of. cbv zeta. now rewrite H. Qed.

Lemma generate_out_of_range ts z p w :
  Qltb p 0 || Qltb 100 p = true ->
  generate_async_timings find randint ts z p w = (Raise ValueError, w).
Proof. intros Hg. now rewrite generate_unfold, Hg. Qed.

Lemma generate_index_error ts z p w e :
  Qltb p 0 || Qltb 100 p = false ->
  valids_of find ts z = Raise e ->
  generate_async_timings find randint ts z p w = (Raise IndexError, w).
Proof.
  intros Hg Hc. rewrite generate_unfold, Hg, Hc.
  now rewrite (valids_raises_index _ _ _ Hc).
Qed.

Lemma generate_empty ts z p w :
  Qltb p 0 || Qltb 100 p = false ->
  valids_of find ts z = Return [] ->
  generate_async_timings find randint ts z p w = (Return (None, false), w).
Proof. intros Hg Hc. now rewrite generate_unfold, Hg, Hc. Qed.

(** With a non-empty [valids] the call returns the drawn delays behind a
    leading zero, the verdict of line 60, the generator as the draw left
    it and a log extended by one record exactly when the verdict is
    [false]. *)
Lemma generate_nonempty ts z p w vs :
  Qltb p 0 || Qltb 100 p = false ->
  valids_of find ts z = Return vs ->
  vs <> [] ->
  generate_async_timings find randint ts z p w
  = (Return (Some (0%Q :: draws (fst (randint (rng w) (length vs)
                                        (length ts - 1)))
                           vs (length ts - 1)),
             verdict ts vs p),
     {| rng := snd (randint (rng w) (length vs) (length ts - 1));
        log := log w ++
               (if verdict ts vs p then []
                else [Warning (length vs) (Z.of_nat (length ts) - 1) p]) |}).
Proof.
  intros Hg Hc Hne.
  pose proof (valids_nonempty_length _ _ _ Hc Hne) as Hn.
  rewrite generate_unfold, Hg, Hc.
  replace (length vs =? 0) with false
    by (symmetry; apply Nat.eqb_neq; destruct vs; [congruence | discriminate]).
  assert (Hsize : Z.to_nat (Z.of_nat (length ts) - 1) = length ts - 1) by lia.
  assert (Hchoice : forall w0,
    np_random_choice randint vs (Z.of_nat (length ts) - 1) w0
    = (Return (draws (fst (randint (rng w0) (length vs) (length ts - 1)))
                 vs (length ts - 1)),
       {| rng := snd (randint (rng w0) (length vs) (length ts - 1));
          log := log w0 |})).
  { intros w0. unfold np_random_choice.
    replace (Z.of_nat (length ts) - 1 <? 0)%Z with false
      by (symmetry; apply Z.ltb_ge; lia).
    replace (length vs =? 0) with false
      by (symmetry; apply Nat.eqb_neq; destruct vs; [congruence | discriminate]).
    simpl andb. cbv zeta. now rewrite Hsize. }
  assert (Hacc : forall r,
    accumulate 0 (draws r vs (length ts - 1)) (np_zeros (length ts))
    = Return (0%Q :: draws r vs (length ts - 1))).
  { intros r.
    replace (length ts) with (S (length (draws r vs (length ts - 1)))) at 2
      by (rewrite length_draws; lia).
    apply accumulate_from_zeros. }
  destruct (verdict ts vs p); simpl negb; cbv iota.
  - unfold bind at 1, ret at 1. unfold bind at 1. rewrite Hchoice.
    unfold bind, lift, ret. rewrite Hacc.
    destruct w as [r l]. simpl. now rewrite app_nil_r.
  - unfold bind at 1, logger_warning at 1. unfold bind at 1.
    rewrite Hchoice. unfold bind, lift, ret. simpl rng. rewrite Hacc.
    reflexivity.
Qed.

(** A returned sequence comes from the synthesis over a non-empty
    [valids], past the argument check. *)
Lemma generate_some_inv ts z p w w' (t : list Q) (v : bool) :
  generate_async_timings find randint ts z p w = (Return (Some t, v), w') ->
  exists vs,
    Qltb p 0 || Qltb 100 p = false
    /\ valids_of find ts z = Return vs
    /\ vs <> []
    /\ t = 0%Q :: draws (fst (randint (rng w) (length vs) (length ts - 1)))
                    vs (length ts - 1)
    /\ v = verdict ts vs p.
Proof.
  intros H. destruct (Qltb p 0 || Qltb 100 p) eqn:Hg.
  { rewrite (generate_out_of_range _ _ _ _ Hg) in H. discriminate. }
  destruct (valids_of find ts z) as [vs|e] eqn:Hc.
  2:{ rewrite (generate_index_error _ _ _ _ _ Hg Hc) in H. discriminate. }
  destruct vs as [|x vs].
  { rewrite (generate_empty _ _ _ _ Hg Hc) in H. discriminate. }
  rewrite (generate_nonempty _ _ _ _ _ Hg Hc) in H by discriminate.
  injection H as <- <- _.
  exists (x :: vs). repeat split. discriminate.
Qed.

End Paths.

(** ** Shared consequences *)


Lemma verdict_true_iff (ts vs : list Q) (p : Q) :
  verdict ts vs p = true <-> (ratio (length vs) (length ts) < p)%Q.
Proof. unfold verdict. apply Qltb_true_iff. Qed.

Lemma emitted_app (r : nat -> nat) (r' : nat -> nat) (l new : list warning) :
  emitted (World r l) (World r' (l ++ new)) = new.
Proof. unfold emitted. simpl. apply drop_app_length. Qed.

Lemma emitted_same (w : world) : emitted w w = [].
Proof. unfold emitted. apply drop_all. Qed.

(** Every interval is the difference of two adjacent timestamps. *)
Lemma in_np_diff (ts : list Q) (x : Q) :
  In x (np_diff ts) ->
  exists i a b, ts !! i = Some a /\ ts !! S i = Some b /\ x = (b - a)%Q.
Proof.
  induction ts as [|a ts IH]; [intros []|].
  destruct ts as [|b ts]; [intros []|].
  change (np_diff (a :: b :: ts)) with ((b - a)%Q :: np_diff (b :: ts)).
  intros [<-|Hin].
  - exists 0, a, b. repeat split.
  - destruct (IH Hin) as (i & a' & b' & Ha & Hb & Hx).
    exists (S i), a', b'. repeat split; assumption.
Qed.

Lemma np_diff_nonneg (ts : list Q) (x : Q) :
  is_nondecreasing ts = true -> In x (np_diff ts) -> (0 <= x)%Q.
Proof.
  induction ts as [|a ts IH]; [intros _ []|].
  destruct ts as [|b ts]; [intros _ []|].
  change (np_diff (a :: b :: ts)) with ((b - a)%Q :: np_diff (b :: ts)).
  change (is_nondecreasing (a :: b :: ts))
    with (Qle_bool a b && is_nondecreasing (b :: ts)).
  intros Hnd [<-|Hin]; apply andb_true_iff in Hnd; destruct Hnd as [Hab Hnd].
  - apply Qle_bool_iff in Hab. unfold Qminus.
    now apply (proj1 (Qle_minus_iff a b)).
  - now apply IH.
Qed.

Lemma ratio_pos (size n : nat) :
  0 < size -> 2 <= n -> (0 < ratio size n)%Q.
Proof.
  intros Hs Hn. unfold ratio.
  apply Qlt_shift_div_l.
  - unfold Qlt. simpl. lia.
  - unfold Qlt. simpl. lia.
Qed.

Lemma ratio_le_100 (size n : nat) :
  size <= n - 1 -> 2 <= n -> (ratio size n <= 100)%Q.
Proof.
  intros Hs Hn. unfold ratio.
  apply Qle_shift_div_r.
  - unfold Qlt. simpl. lia.
  - unfold Qle. simpl. lia.
Qed.



(** ** Configuration error *)

(** C7. The call raises [ValueError] exactly when [valid_perc] is strictly
    below 0 or strictly above 100 (so 0 and 100 are accepted), and it then
    does so for every input sequence and every outlier filter, with the
    world untouched: nothing was extracted, filtered, drawn or logged. *)
Theorem valid_perc_out_of_range_raises find randint (ts : list Q) (z p : Q)
    (w : world) :
  ((p < 0)%Q \/ (100 < p)%Q ->
   generate_async_timings find randint ts z p w = (Raise ValueError, w))
  /\ (fst (generate_async_timings find randint ts z p w) = Raise ValueError ->
      (p < 0)%Q \/ (100 < p)%Q).
Proof.
  split.
  - intros Hp. apply generate_out_of_range. apply orb_true_iff.
    destruct Hp as [Hp|Hp]; [left | right]; now apply Qltb_true_iff.
  - intros Hr. destruct (Qltb p 0 || Qltb 100 p) eqn:Hg.
    + apply orb_true_iff in Hg.
      destruct Hg as [Hg|Hg]; [left | right]; now apply Qltb_true_iff.
    + exfalso. destruct (valids_of find ts z) as [vs|e] eqn:Hc.
      * destruct vs as [|v vs].
        -- rewrite (generate_empty find randint _ _ _ _ Hg Hc) in Hr.
           discriminate.
        -- rewrite (generate_nonempty find randint _ _ _ _ _ Hg Hc) in Hr
             by discriminate.
           discriminate.
      * rewrite (generate_index_error find randint _ _ _ _ _ Hg Hc) in Hr.
        discriminate.
Qed.

(** ** What the synthesis returns *)


(** ** The warning *)


(** ** Concrete runs *)

Lemma beats11_valids :
  valids_of find_outliers_spec beats11 1 = Return [1; 1; 1; 1]%Q.
Proof. vm_compute. reflexivity. Qed.

Lemma beats_jump_valids :
  valids_of find_outliers_spec beats_jump 2 = Return [2; 50]%Q.
Proof. vm_compute. reflexivity. Qed.

Lemma beats3_all_flagged_valids :
  valids_of find_outliers_spec beats3 (1 # 2) = Return [2; 1]%Q.
Proof. vm_compute. reflexivity. Qed.

Lemma beats_jump_run :
  generate_async_timings find_outliers_spec randint_stream beats_jump 2 60
    (World (rng_of [0; 1]) [])
  = (Return (Some [0; 2; 50; 2; 2; 2; 2; 2; 2; 2; 2]%Q, true),
     World (fun k => rng_of [0; 1] (10 + k)) []).
Proof.
  rewrite (generate_nonempty find_outliers_spec randint_stream beats_jump 2 60
             _ [2; 50]%Q);
    [reflexivity | reflexivity | exact beats_jump_valids | discriminate].
Qed.

(** C1. On eleven beats whose ten intervals are six 1s and four 5s, with
    [zscore = 1], the filter flags the four 5s (indices 6 to 9): six of
    ten intervals survive and the surviving ratio is exactly 60.  Line 57
    selects one value per flagged index, so line 60 compares 40 with the
    threshold, and the call returns the verdict [True] for
    [valid_perc = 61], where [ratio >= valid_perc] is false (and [True]
    for [valid_perc = 60] too). *)
Theorem verdict_at_threshold_is_not_the_surviving_share randint (w : world) :
  find_outliers_spec (np_diff beats11) 1 3 = [6; 7; 8; 9]
  /\ length (np_diff beats11) = 10
  /\ length (spec_cleaned find_outliers_spec beats11 1) = 6
  /\ (ratio 6 (length beats11) == 60)%Q
  /\ valids_of find_outliers_spec beats11 1 = Return [1; 1; 1; 1]%Q
  /\ (ratio 4 (length beats11) == 40)%Q
  /\ (exists timings w',
        generate_async_timings find_outliers_spec randint beats11 1 61 w
        = (Return (Some timings, true), w'))
  /\ (exists timings w',
        generate_async_timings find_outliers_spec randint beats11 1 60 w
        = (Return (Some timings, true), w')).
Proof.
  split; [reflexivity|]. split; [reflexivity|]. split; [reflexivity|].
  split; [reflexivity|]. split; [exact beats11_valids|].
  split; [reflexivity|].
  split.
  - pose proof (generate_nonempty find_outliers_spec randint beats11 1 61 w _
                  eq_refl beats11_valids ltac:(discriminate)) as H.
    change (verdict beats11 [1; 1; 1; 1]%Q 61) with true in H.
    eexists _, _. exact H.
  - pose proof (generate_nonempty find_outliers_spec randint beats11 1 60 w _
                  eq_refl beats11_valids ltac:(discriminate)) as H.
    change (verdict beats11 [1; 1; 1; 1]%Q 60) with true in H.
    eexists _, _. exact H.
Qed.

(** C2. On eleven beats with intervals 50, eight 1s and 2, with
    [zscore = 2], the intervals 50 and 2 are flagged and line 57 selects
    2 and 50.  With the delays 2, 50, 2, ... drawn, the call returns
    0, 2, 50, 2, ...: its element 2 is the delay 50 alone, not the
    previous element plus that delay, and the sequence is not the running
    sum 0, 2, 52, 54, ... of the drawn delays. *)
Theorem timings_are_not_the_running_sum :
  let w := World (rng_of [0; 1]) [] in
  let delays := draws (rng_of [0; 1]) [2; 50]%Q 10 in
  exists timings,
    fst (generate_async_timings find_outliers_spec randint_stream
           beats_jump 2 60 w)
    = Return (Some timings, true)
    /\ delays = [2; 50; 2; 2; 2; 2; 2; 2; 2; 2]%Q
    /\ timings = 0%Q :: delays
    /\ running_sum 0 delays = [0; 2; 52; 54; 56; 58; 60; 62; 64; 66; 68]%Q
    /\ ~ (nth 2 timings 0 == nth 1 timings 0 + nth 1 delays 0)%Q.
Proof.
  exists [0; 2; 50; 2; 2; 2; 2; 2; 2; 2; 2]%Q. rewrite beats_jump_run.
  repeat split. vm_compute. discriminate.
Qed.

(** C3. On the same non-decreasing beats, with the delays 2, 50, 2, ...
    drawn, the returned sequence 0, 2, 50, 2, ... starts at 0 but
    decreases from its third to its fourth element. *)
Theorem timings_can_decrease :
  let w := World (rng_of [0; 1]) [] in
  exists timings,
    fst (generate_async_timings find_outliers_spec randint_stream
           beats_jump 2 60 w)
    = Return (Some timings, true)
    /\ is_nondecreasing beats_jump = true
    /\ nth 0 timings 1%Q = 0%Q
    /\ is_nondecreasing timings = false
    /\ (nth 3 timings 0 < nth 2 timings 0)%Q.
Proof.
  exists [0; 2; 50; 2; 2; 2; 2; 2; 2; 2; 2]%Q. rewrite beats_jump_run.
  repeat split.
Qed.

(** C4. On the same beats the cleaned subset is eight 1s and line 57
    selects 2 and 50.  With the delays 2, 50, 2, ... drawn, the
    consecutive differences of the returned sequence begin 2, 48, -48:
    none of them is a value of the cleaned subset, and 48 and -48 are not
    even among the values drawn from. *)
Theorem derived_interval_outside_cleaned_subset :
  let w := World (rng_of [0; 1]) [] in
  exists timings,
    fst (generate_async_timings find_outliers_spec randint_stream
           beats_jump 2 60 w)
    = Return (Some timings, true)
    /\ spec_cleaned find_outliers_spec beats_jump 2
       = [1; 1; 1; 1; 1; 1; 1; 1]%Q
    /\ valids_of find_outliers_spec beats_jump 2 = Return [2; 50]%Q
    /\ firstn 3 (np_diff timings) = [2; 48; -48]%Q
    /\ forallb (fun d => negb (memQ d (spec_cleaned find_outliers_spec
                                         beats_jump 2)))
         (firstn 3 (np_diff timings)) = true
    /\ memQ (nth 2 (np_diff timings) 0%Q) [2; 50]%Q = false.
Proof.
  exists [0; 2; 50; 2; 2; 2; 2; 2; 2; 2; 2]%Q. rewrite beats_jump_run.
  repeat split.
Qed.

(** C5. On the beats 0, 1, 3 with [zscore = 4] nothing is flagged, so the
    cleaned subset is both intervals, 1 and 2; but line 57 then selects
    nothing and the call returns [(None, False)]: no sequence of the
    input's length, for an input of length 3 with a non-empty cleaned
    subset. *)
Theorem unflagged_input_gets_no_sequence randint (w : world) :
  find_outliers_spec (np_diff beats3) 4 3 = []
  /\ spec_cleaned find_outliers_spec beats3 4 = [1; 2]%Q
  /\ 2 <= length beats3
  /\ generate_async_timings find_outliers_spec randint beats3 4 60 w
     = (Return (None, false), w).
Proof.
  split; [reflexivity|]. split; [reflexivity|]. split; [simpl; lia|].
  apply generate_empty; reflexivity.
Qed.

(** C6. On the beats 0, 1, 3 with [zscore = 1/2] both intervals are
    flagged and the cleaned subset is empty; but line 57 then selects two
    values, and the call draws, logs one record and returns a sequence of
    length 3 with the verdict [False] instead of [(None, False)]. *)
Theorem all_flagged_input_is_synthesised randint (w : world) :
  find_outliers_spec (np_diff beats3) (1 # 2) 3 = [0; 1]
  /\ spec_cleaned find_outliers_spec beats3 (1 # 2) = []
  /\ exists timings w',
       generate_async_timings find_outliers_spec randint beats3 (1 # 2) 60 w
       = (Return (Some timings, false), w')
       /\ length timings = 3
       /\ (forall d, In d timings -> d = 0%Q \/ In d [2; 1]%Q)
       /\ emitted w w' = [Warning 2 2 60].
Proof.
  split; [reflexivity|]. split; [reflexivity|].
  pose proof (generate_nonempty find_outliers_spec randint beats3 (1 # 2) 60
                w _ eq_refl beats3_all_flagged_valids ltac:(discriminate))
    as H.
  change (verdict beats3 [2; 1]%Q 60) with false in H.
  eexists _, _. split; [exact H|].
  split; [reflexivity|]. split.
  - intros d [<-|Hd]; [now left | right].
    now apply draws_in in Hd.
  - destruct w as [r l]. cbn [rng log]. now rewrite emitted_app.
Qed.



(** ** Instances of the general theorems *)

Lemma valid_perc_out_of_range_raises_witness :
  generate_async_timings find_outliers_spec randint_stream beats3 4 150
    (World (rng_of [1; 0]) [])
  = (Raise ValueError, World (rng_of [1; 0]) []).
Proof.
  apply (proj1 (valid_perc_out_of_range_raises find_outliers_spec
                  randint_stream beats3 4 150 (World (rng_of [1; 0]) []))).
  right. unfold Qlt; simpl; lia.
Defined.



(** * Further properties of the call *)

(** ** Facts about line 57 and the counts *)

Lemma int_index_not_bounds (a : list Q) (l : list nat) (vs : list Q) :
  int_index a (map bitwise_not l) = Return vs ->
  Forall (fun i => i < length a) l.
Proof.
  revert vs. induction l as [|i l IH]; intros vs; [constructor|].
  simpl map. rewrite int_index_cons.
  destruct (le_lt_dec (length a) i) as [Hge|Hlt].
  { now rewrite (getitem_not_ge a i Hge). }
  destruct (getitem a (bitwise_not i)); [|discriminate]. simpl obind.
  destruct (int_index a (map bitwise_not l)) as [ys|] eqn:E; [|discriminate].
  intros _. constructor; [exact Hlt | now apply (IH ys)].
Qed.

Lemma compress_map_length (f : nat -> bool) (a : list Q) (k : nat) :
  length (compress (map f (seq k (length a))) a)
  = length (List.filter f (seq k (length a))).
Proof.
  revert k. induction a as [|x a IH]; intros k; [reflexivity|].
  simpl. destruct (f k); simpl; now rewrite IH.
Qed.

Lemma compress_all_kept (a : list Q) (k : nat) :
  compress (map (fun _ => negb false) (seq k (length a))) a = a.
Proof.
  revert k. induction a as [|x a IH]; intros k; [reflexivity|].
  simpl. now rewrite IH.
Qed.

(** Distinct indices within bounds are as many as the positions they
    cover. *)
Lemma distinct_indices_count (l : list nat) (n : nat) :
  List.NoDup l -> Forall (fun i => i < n) l ->
  length (List.filter (fun i => existsb (Nat.eqb i) l) (seq 0 n)) = length l.
Proof.
  intros Hnd Hb. rewrite Forall_forall in Hb.
  apply Nat.le_antisymm.
  - apply NoDup_incl_length; [apply List.NoDup_filter, seq_NoDup|].
    intros i Hi. apply filter_In in Hi. destruct Hi as [_ Hi].
    apply existsb_exists in Hi. destruct Hi as (j & Hj & Hij).
    apply Nat.eqb_eq in Hij. now subst.
  - apply NoDup_incl_length; [exact Hnd|].
    intros i Hi. apply filter_In. split.
    + apply in_seq. specialize (Hb i (proj2 (list_elem_of_In _ _) Hi)). lia.
    + apply existsb_exists. exists i. split; [exact Hi | apply Nat.eqb_refl].
Qed.

(** ** Exceptions and short inputs *)

(** X1. With [valid_perc] in [0, 100] and every index returned by the
    filter below the number of intervals (as [np.where] guarantees), the
    call never raises: neither line 57, nor the draw of line 70, nor the
    reads and writes of line 73.  It returns [(None, False)] with the
    world untouched when the filter returned no index, and a sequence of
    the input's length otherwise. *)
Theorem in_range_call_with_indices_in_bounds_returns find randint
    (ts : list Q) (z p : Q) (w : world) :
  (0 <= p)%Q -> (p <= 100)%Q ->
  Forall (fun i => i < length (np_diff ts)) (find (np_diff ts) z 3) ->
  (find (np_diff ts) z 3 = []
   /\ generate_async_timings find randint ts z p w
      = (Return (None, false), w))
  \/ (find (np_diff ts) z 3 <> []
      /\ exists timings valid w',
           generate_async_timings find randint ts z p w
           = (Return (Some timings, valid), w')
           /\ length timings = length ts).
Proof.
  intros H0 H100 Hb. pose proof (in_range_guard p H0 H100) as Hg.
  destruct (int_index_not_in_bounds _ _ Hb) as [vs Hv].
  change (valids_of find ts z = Return vs) in Hv.
  pose proof (valids_size find _ _ _ Hv) as Hsz.
  destruct (find (np_diff ts) z 3) as [|i l] eqn:Ef.
  - left. split; [reflexivity|].
    destruct vs; [|discriminate]. now apply generate_empty.
  - right. split; [discriminate|].
    assert (Hne : vs <> []) by (destruct vs; [discriminate | discriminate]).
    pose proof (valids_nonempty_length find _ _ _ Hv Hne) as Hn.
    eexists _, _, _. split.
    + exact (generate_nonempty find randint _ _ _ w _ Hg Hv Hne).
    + simpl. rewrite length_draws. lia.
Qed.

(** X2. An input of fewer than two timestamps has no interval: provided
    the filter returns nothing on no intervals, and [valid_perc] lies in
    [0, 100], the call returns [(None, False)] by the early return of
    lines 58-59, before the division by [n - 1] of line 60, and leaves
    the world as found. *)
Theorem short_input_returns_none find randint (ts : list Q) (z p : Q)
    (w : world) :
  (0 <= p)%Q -> (p <= 100)%Q ->
  length ts <= 1 ->
  find [] z 3 = [] ->
  generate_async_timings find randint ts z p w = (Return (None, false), w).
Proof.
  intros H0 H100 Hlen Hmask.
  apply generate_empty; [now apply in_range_guard|].
  assert (Hd : np_diff ts = []).
  { destruct ts as [|a [|b ts]]; [reflexivity | reflexivity | simpl in Hlen; lia]. }
  apply valids_nothing_flagged. now rewrite Hd.
Qed.

(** X7. Whenever the filter flags nothing (and [valid_perc] lies in
    [0, 100]), whatever the input, line 57 selects nothing and the call
    returns [(None, False)] with the generator and the log untouched: an
    input without outliers gets no sequence. *)
Theorem nothing_flagged_returns_none find randint (ts : list Q) (z p : Q)
    (w : world) :
  (0 <= p)%Q -> (p <= 100)%Q ->
  find (np_diff ts) z 3 = [] ->
  valids_of find ts z = Return []
  /\ spec_cleaned find ts z = np_diff ts
  /\ generate_async_timings find randint ts z p w = (Return (None, false), w).
Proof.
  intros H0 H100 Hf.
  pose proof (valids_nothing_flagged find ts z Hf) as Hv.
  split; [exact Hv|]. split.
  - unfold spec_cleaned. cbv zeta. rewrite Hf. simpl existsb.
    apply compress_all_kept.
  - apply generate_empty; [now apply in_range_guard | exact Hv].
Qed.

(** ** The values a returned sequence holds *)

(** X4. Every element of a returned sequence is zero or one of the
    intervals of the input, that is, the difference of two adjacent input
    timestamps: the call returns no value that is not already a gap of the
    input. *)
Theorem returned_values_are_zero_or_input_intervals find randint
    (ts : list Q) (z p : Q) (w w' : world) (t : list Q) (v : bool) :
  generate_async_timings find randint ts z p w = (Return (Some t, v), w') ->
  forall x, In x t ->
    x = 0%Q \/
    exists i a b, ts !! i = Some a /\ ts !! S i = Some b /\ x = (b - a)%Q.
Proof.
  intros H x Hx.
  destruct (generate_some_inv find randint _ _ _ _ _ _ _ H)
    as (vs & _ & Hc & Hne & -> & _).
  destruct Hx as [<-|Hx]; [now left|right].
  apply in_np_diff.
  apply draws_in in Hx; [|exact Hne].
  exact (valids_in_diff find _ _ _ _ Hc Hx).
Qed.

(** X5. For a non-decreasing input, no element of a returned sequence is
    negative. *)
Theorem returned_values_are_nonnegative find randint (ts : list Q)
    (z p : Q) (w w' : world) (t : list Q) (v : bool) :
  is_nondecreasing ts = true ->
  generate_async_timings find randint ts z p w = (Return (Some t, v), w') ->
  forall x, In x t -> (0 <= x)%Q.
Proof.
  intros Hnd H x Hx.
  destruct (generate_some_inv find randint _ _ _ _ _ _ _ H)
    as (vs & _ & Hc & Hne & -> & _).
  destruct Hx as [<-|Hx]; [apply Qle_refl|].
  apply (np_diff_nonneg ts); [exact Hnd|].
  apply draws_in in Hx; [|exact Hne].
  exact (valids_in_diff find _ _ _ _ Hc Hx).
Qed.

(** X10. Every element of a returned sequence is zero or the interval at
    the mirrored position [N - 2 - i] of an index [i] the filter
    returned: line 57 complements the indices bitwise, and a negative
    index counts from the end. *)
Theorem returned_values_come_from_mirrored_indices find randint
    (ts : list Q) (z p : Q) (w w' : world) (t : list Q) (v : bool) :
  generate_async_timings find randint ts z p w = (Return (Some t, v), w') ->
  forall x, In x t ->
    x = 0%Q \/
    exists i, In i (find (np_diff ts) z 3)
              /\ i < length (np_diff ts)
              /\ np_diff ts !! (length (np_diff ts) - 1 - i) = Some x.
Proof.
  intros H x Hx.
  destruct (generate_some_inv find randint _ _ _ _ _ _ _ H)
    as (vs & _ & Hc & Hne & -> & _).
  destruct Hx as [<-|Hx]; [now left|right].
  apply draws_in in Hx; [|exact Hne].
  exact (int_index_not_mirror _ _ _ _ Hc Hx).
Qed.

(** ** The validity gate *)

(** X6. Whenever line 57 selects something and the indices the filter
    returned are distinct (as [np.where] guarantees), [valids.size] is the
    number of flagged intervals: together with the unflagged intervals it
    makes up the [N - 1] intervals, and the quantity
    [100 * valids.size / (N - 1)] that line 60 compares with [valid_perc]
    is the percentage of flagged intervals, in (0, 100]. *)
Theorem line_60_compares_the_flagged_share find (ts : list Q) (z : Q)
    (vs : list Q) :
  valids_of find ts z = Return vs -> vs <> [] ->
  List.NoDup (find (np_diff ts) z 3) ->
  length vs = length (find (np_diff ts) z 3)
  /\ length vs + length (spec_cleaned find ts z) = length ts - 1
  /\ (0 < ratio (length vs) (length ts))%Q
  /\ (ratio (length vs) (length ts) <= 100)%Q.
Proof.
  intros Hc Hne Hnd.
  pose proof (valids_nonempty_length find _ _ _ Hc Hne) as Hn.
  pose proof (valids_size find _ _ _ Hc) as Hsz.
  pose proof (int_index_not_bounds _ _ _ Hc) as Hb.
  assert (Hsum : length vs + length (spec_cleaned find ts z) = length ts - 1).
  { unfold spec_cleaned. cbv zeta. rewrite compress_map_length.
    rewrite Hsz, <- (distinct_indices_count _ _ Hnd Hb).
    rewrite List.filter_length. rewrite List.length_seq.
    apply length_np_diff. }
  split; [exact Hsz|]. split; [exact Hsum|]. split.
  - apply ratio_pos; [|exact Hn]. destruct vs; [congruence | simpl; lia].
  - apply ratio_le_100; [lia | exact Hn].
Qed.

(** X8. The threshold decides the verdict and the log only.  Two calls
    from the same world that differ in [valid_perc] alone (both in
    [0, 100]) raise the same exception or return the same sequence (or
    both none) and leave the generator in the same state; and a verdict
    [True] obtained at a threshold is also obtained at every larger
    one. *)
Theorem valid_perc_decides_only_the_verdict find randint (ts : list Q)
    (z p p' : Q) (w : world) :
  (0 <= p)%Q -> (p <= 100)%Q -> (0 <= p')%Q -> (p' <= 100)%Q ->
  match generate_async_timings find randint ts z p w,
        generate_async_timings find randint ts z p' w with
  | (Return (r, v), w1), (Return (r', v'), w2) =>
      r = r' /\ rng w1 = rng w2
      /\ ((p <= p')%Q -> v = true -> v' = true)
  | (Raise e, w1), (Raise e', w2) => e = e' /\ w1 = w /\ w2 = w
  | _, _ => False
  end.
Proof.
  intros H0 H100 H0' H100'.
  pose proof (in_range_guard p H0 H100) as Hg.
  pose proof (in_range_guard p' H0' H100') as Hg'.
  destruct (valids_of find ts z) as [vs|e] eqn:Hc.
  - destruct vs as [|x vs].
    + rewrite !(generate_empty find randint) by assumption.
      repeat split. discriminate.
    + rewrite (generate_nonempty find randint _ _ p w _ Hg Hc) by discriminate.
      rewrite (generate_nonempty find randint _ _ p' w _ Hg' Hc)
        by discriminate.
      repeat split.
      intros Hle Hv. apply verdict_true_iff in Hv. apply verdict_true_iff.
      eapply Qlt_le_trans; eassumption.
  - rewrite (generate_index_error find randint _ _ p w _ Hg Hc).
    rewrite (generate_index_error find randint _ _ p' w _ Hg' Hc).
    repeat split.
Qed.

(** ** What a call leaves of the world, and what the generator decides *)

(** X9. Whatever the arguments, the filter and the generator, a call keeps
    every record the log held and appends at most one, and only when it
    returns a sequence with the verdict [False]; that record carries the
    size of [valids], which is the number of indices the filter returned.
    A call that returns no sequence leaves the world, generator included,
    as it found it. *)
Theorem call_only_appends_to_the_log find randint (ts : list Q) (z p : Q)
    (w : world) :
  exists new,
    log (snd (generate_async_timings find randint ts z p w)) = log w ++ new
    /\ (new = [] \/
        exists t vs,
          fst (generate_async_timings find randint ts z p w)
          = Return (Some t, false)
          /\ valids_of find ts z = Return vs
          /\ length vs = length (find (np_diff ts) z 3)
          /\ new = [Warning (length vs) (Z.of_nat (length ts) - 1) p])
    /\ ((forall t v,
           fst (generate_async_timings find randint ts z p w)
           <> Return (Some t, v)) ->
        snd (generate_async_timings find randint ts z p w) = w).
Proof.
  assert (Hsame : forall r,
    generate_async_timings find randint ts z p w = (r, w) ->
    exists new,
      log (snd (generate_async_timings find randint ts z p w)) = log w ++ new
      /\ (new = [] \/
          exists t vs,
            fst (generate_async_timings find randint ts z p w)
            = Return (Some t, false)
            /\ valids_of find ts z = Return vs
            /\ length vs = length (find (np_diff ts) z 3)
            /\ new = [Warning (length vs) (Z.of_nat (length ts) - 1) p])
      /\ ((forall t v,
             fst (generate_async_timings find randint ts z p w)
             <> Return (Some t, v)) ->
          snd (generate_async_timings find randint ts z p w) = w)).
  { intros r Hr. exists []. rewrite Hr. cbn [fst snd].
    rewrite app_nil_r. repeat split. now left. }
  destruct (Qltb p 0 || Qltb 100 p) eqn:Hg.
  { exact (Hsame _ (generate_out_of_range find randint _ _ _ w Hg)). }
  destruct (valids_of find ts z) as [vs|e] eqn:Hc.
  2:{ exact (Hsame _ (generate_index_error find randint _ _ _ w _ Hg Hc)). }
  destruct vs as [|x vs].
  { exact (Hsame _ (generate_empty find randint _ _ _ w Hg Hc)). }
  clear Hsame.
  pose proof (valids_size find _ _ _ Hc) as Hsz.
  rewrite (generate_nonempty find randint _ _ _ w _ Hg Hc) by discriminate.
  cbn [fst snd rng log].
  destruct (verdict ts (x :: vs) p).
  - exists []. split; [reflexivity|]. split; [now left|].
    intros Hno. exfalso. now apply (Hno _ _ eq_refl).
  - eexists. split; [reflexivity|]. split.
    + right. eexists _, (x :: vs). repeat split. exact Hsz.
    + intros Hno. exfalso. now apply (Hno _ _ eq_refl).
Qed.

(** X11. The generator decides the drawn values and nothing else: two
    calls on the same arguments, from any two states of the world and
    with any two behaviours of the generator, raise the same exception or
    both return no sequence or both return a sequence of the same length,
    return the same verdict and log the same records. *)
Theorem generator_decides_only_the_drawn_values find randint1 randint2
    (ts : list Q) (z p : Q) (w1 w2 : world) :
  shape (fst (generate_async_timings find randint1 ts z p w1))
  = shape (fst (generate_async_timings find randint2 ts z p w2))
  /\ emitted w1 (snd (generate_async_timings find randint1 ts z p w1))
     = emitted w2 (snd (generate_async_timings find randint2 ts z p w2)).
Proof.
  destruct (Qltb p 0 || Qltb 100 p) eqn:Hg.
  { rewrite (generate_out_of_range find randint1 _ _ _ _ Hg).
    rewrite (generate_out_of_range find randint2 _ _ _ _ Hg).
    simpl. now rewrite !emitted_same. }
  destruct (valids_of find ts z) as [vs|e] eqn:Hc.
  - destruct vs as [|v vs].
    + rewrite (generate_empty find randint1 _ _ _ _ Hg Hc).
      rewrite (generate_empty find randint2 _ _ _ _ Hg Hc).
      simpl. now rewrite !emitted_same.
    + rewrite (generate_nonempty find randint1 _ _ _ _ _ Hg Hc) by discriminate.
      rewrite (generate_nonempty find randint2 _ _ _ _ _ Hg Hc) by discriminate.
      destruct w1 as [r1 l1], w2 as [r2 l2].
      cbn [fst snd rng log shape]. rewrite !emitted_app.
      split; [|reflexivity].
      cbn [length]. now rewrite !length_draws.
  - rewrite (generate_index_error find randint1 _ _ _ _ _ Hg Hc).
    rewrite (generate_index_error find randint2 _ _ _ _ _ Hg Hc).
    simpl. now rewrite !emitted_same.
Qed.

(** ** Instances of the further properties *)

Lemma in_range_call_with_indices_in_bounds_returns_witness :
  (find_outliers_spec (np_diff beats_jump) 2 3 = []
   /\ generate_async_timings find_outliers_spec randint_stream beats_jump
        2 60 (World (rng_of [0; 1]) [])
      = (Return (None, false), World (rng_of [0; 1]) []))
  \/ (find_outliers_spec (np_diff beats_jump) 2 3 <> []
      /\ exists timings valid w',
           generate_async_timings find_outliers_spec randint_stream
             beats_jump 2 60 (World (rng_of [0; 1]) [])
           = (Return (Some timings, valid), w')
           /\ length timings = length beats_jump).
Proof.
  apply (in_range_call_with_indices_in_bounds_returns find_outliers_spec
           randint_stream beats_jump 2 60 (World (rng_of [0; 1]) [])).
  - unfold Qle; simpl; lia.
  - unfold Qle; simpl; lia.
  - vm_compute. repeat constructor.
Defined.

Lemma short_input_returns_none_witness :
  generate_async_timings find_outliers_spec randint_stream [5%Q] 4 60
    (World (rng_of [1; 0]) [])
  = (Return (None, false), World (rng_of [1; 0]) []).
Proof.
  apply (short_input_returns_none find_outliers_spec randint_stream [5%Q]
           4 60 (World (rng_of [1; 0]) [])).
  - unfold Qle; simpl; lia.
  - unfold Qle; simpl; lia.
  - simpl; lia.
  - reflexivity.
Defined.

Lemma nothing_flagged_returns_none_witness :
  valids_of find_outliers_spec beats3 4 = Return []
  /\ spec_cleaned find_outliers_spec beats3 4 = np_diff beats3
  /\ generate_async_timings find_outliers_spec randint_stream beats3 4 60
       (World (rng_of [1; 0]) [])
     = (Return (None, false), World (rng_of [1; 0]) []).
Proof.
  apply (nothing_flagged_returns_none find_outliers_spec randint_stream
           beats3 4 60 (World (rng_of [1; 0]) [])).
  - unfold Qle; simpl; lia.
  - unfold Qle; simpl; lia.
  - reflexivity.
Defined.

Lemma returned_values_are_zero_or_input_intervals_witness :
  50%Q = 0%Q \/
  exists i a b,
    beats_jump !! i = Some a /\ beats_jump !! S i = Some b
    /\ 50%Q = (b - a)%Q.
Proof.
  apply (returned_values_are_zero_or_input_intervals find_outliers_spec
           randint_stream beats_jump 2 60 (World (rng_of [0; 1]) [])
           (World (fun k => rng_of [0; 1] (10 + k)) [])
           [0; 2; 50; 2; 2; 2; 2; 2; 2; 2; 2]%Q true).
  - vm_compute; reflexivity.
  - right; right; left; reflexivity.
Defined.

Lemma returned_values_are_nonnegative_witness : (0 <= 50)%Q.
Proof.
  apply (returned_values_are_nonnegative find_outliers_spec
           randint_stream beats_jump 2 60 (World (rng_of [0; 1]) [])
           (World (fun k => rng_of [0; 1] (10 + k)) [])
           [0; 2; 50; 2; 2; 2; 2; 2; 2; 2; 2]%Q true).
  - reflexivity.
  - vm_compute; reflexivity.
  - right; right; left; reflexivity.
Defined.

Lemma returned_values_come_from_mirrored_indices_witness :
  50%Q = 0%Q \/
  exists i, In i (find_outliers_spec (np_diff beats_jump) 2 3)
            /\ i < length (np_diff beats_jump)
            /\ np_diff beats_jump !! (length (np_diff beats_jump) - 1 - i)
               = Some 50%Q.
Proof.
  apply (returned_values_come_from_mirrored_indices find_outliers_spec
           randint_stream beats_jump 2 60 (World (rng_of [0; 1]) [])
           (World (fun k => rng_of [0; 1] (10 + k)) [])
           [0; 2; 50; 2; 2; 2; 2; 2; 2; 2; 2]%Q true).
  - vm_compute; reflexivity.
  - right; right; left; reflexivity.
Defined.

Lemma line_60_compares_the_flagged_share_witness :
  length [1; 1; 1; 1]%Q
  = length (find_outliers_spec (np_diff beats11) 1 3)
  /\ length [1; 1; 1; 1]%Q
     + length (spec_cleaned find_outliers_spec beats11 1)
     = length beats11 - 1
  /\ (0 < ratio (length [1; 1; 1; 1]%Q) (length beats11))%Q
  /\ (ratio (length [1; 1; 1; 1]%Q) (length beats11) <= 100)%Q.
Proof.
  apply (line_60_compares_the_flagged_share find_outliers_spec beats11 1
           [1; 1; 1; 1]%Q).
  - vm_compute; reflexivity.
  - discriminate.
  - vm_compute.
    repeat (apply List.NoDup_cons; [simpl; intuition lia|]).
    apply List.NoDup_nil.
Defined.

Lemma valid_perc_decides_only_the_verdict_witness :
  match generate_async_timings find_outliers_spec randint_stream beats11 1
          60 (World (rng_of [1; 0]) []),
        generate_async_timings find_outliers_spec randint_stream beats11 1
          61 (World (rng_of [1; 0]) []) with
  | (Return (r, v), w1), (Return (r', v'), w2) =>
      r = r' /\ rng w1 = rng w2
      /\ ((60 <= 61)%Q -> v = true -> v' = true)
  | (Raise e, w1), (Raise e', w2) =>
      e = e' /\ w1 = World (rng_of [1; 0]) []
      /\ w2 = World (rng_of [1; 0]) []
  | _, _ => False
  end.
Proof.
  apply (valid_perc_decides_only_the_verdict find_outliers_spec
           randint_stream beats11 1 60 61 (World (rng_of [1; 0]) [])).
  - unfold Qle; simpl; lia.
  - unfold Qle; simpl; lia.
  - unfold Qle; simpl; lia.
  - unfold Qle; simpl; lia.
Defined.
